(** * Clique notebook: brute-force oracle, verifier, energy model, decoder

    Shallow embedding of [community/aqua/optimization/clique.ipynb].

    The notebook defines [brute_force] and its local helper [bitfield];
    everything it calls on the [clique] module ([satisfy_or_not],
    [get_clique_qubitops], [sample_most_likely], [get_graph_solution]) is
    imported and is modelled separately, from the specification. *)

From Stdlib Require Import ZArith List Bool Lia Ascii QArith.
Import ListNotations.

Open Scope Z_scope.

(** ** Python values used by the notebook *)

(** Python [str] as a list of characters. *)
Definition str := list ascii.

(** A candidate assignment: the Python list of ints [cur]. *)
Definition assignment := list Z.

(** The adjacency matrix [w]; the demo weights are whole numbers. *)
Definition graph := list (list Z).

Module Py.

(** [bin(p)[2:]] for a positive int: binary digits, most significant first.
    [acc] holds the digits already produced for the lower bits. *)
Fixpoint bin_digits (p : positive) (acc : str) : str :=
  match p with
  | xH => "1"%char :: acc
  | xO q => bin_digits q ("0"%char :: acc)
  | xI q => bin_digits q ("1"%char :: acc)
  end.

(** [s.zfill(width)] on a string without sign. *)
Definition zfill (s : str) (width : nat) : str :=
  repeat "0"%char (width - length s) ++ s.

(** [int(digit)] on a one-character string holding a decimal digit. *)
Definition int_of_digit (c : ascii) : Z :=
  Z.of_nat (nat_of_ascii c) - 48.

(** [range(n)]. *)
Definition range (n : nat) : list Z := map Z.of_nat (seq 0 n).

End Py.

Module Np.

(** [np.binary_repr(num, width)] with the width given, as numpy has it:
<<
    if num == 0:
        return '0' * (width or 1)
    elif num > 0:
        binary = bin(num)[2:]
        outwidth = max(len(binary), width)
        return binary.zfill(outwidth)
    else:
        poswidth = len(bin(-num)[2:])
        if 2**(poswidth - 1) == -num:
            poswidth -= 1
        twocomp = 2**(poswidth + 1) + num
        binary = bin(twocomp)[2:]
        outwidth = max(len(binary), width)
        return '1' * (outwidth - len(binary)) + binary
>>
    ([width or 1] is [1] when [width] is [0]). *)
Definition binary_repr (num : Z) (width : nat) : str :=
  match num with
  | Z0 => repeat "0"%char (match width with O => 1%nat | _ => width end)
  | Zpos p =>
      let binary := Py.bin_digits p [] in
      let outwidth := Nat.max (length binary) width in
      Py.zfill binary outwidth
  | Zneg p =>
      let poswidth0 := length (Py.bin_digits p []) in
      let poswidth :=
        if 2 ^ (Z.of_nat poswidth0 - 1) =? Zpos p
        then (poswidth0 - 1)%nat else poswidth0 in
      let twocomp := 2 ^ (Z.of_nat poswidth + 1) + num in
      let binary :=
        match twocomp with
        | Zpos q => Py.bin_digits q []
        | _ => ["0"%char]
        end in
      let outwidth := Nat.max (length binary) width in
      repeat "1"%char (outwidth - length binary) ++ binary
  end.

End Np.

(** ** The notebook's [brute_force] *)

(** [bitfield(n, L)]:
<<
    result = np.binary_repr(n, L)
    return [int(digit) for digit in result]
>> *)
Definition bitfield (n : Z) (L : nat) : assignment :=
  let result := Np.binary_repr n L in
  map Py.int_of_digit result.

Section BruteForce.

(** The globals the notebook's [brute_force] reads, and the imported
    verifier [clique.satisfy_or_not] it calls. *)
Variable satisfy_or_not : assignment -> graph -> Z -> bool.
Variable num_nodes : nat.
Variable w : graph.
Variable K : Z.

(** State of the [for] loop: [has_sol] and the loop variable [cur]
    ([None] while [cur] is not bound yet). *)
Definition loop_state := (bool * option assignment)%type.

(** The loop body over the remaining values of [i]; [break] ends it. *)
Fixpoint brute_force_loop (L : nat) (idxs : list Z) (st : loop_state)
  : loop_state :=
  match idxs with
  | [] => st
  | i :: rest =>
      let cur := bitfield i L in
      let cur_v := satisfy_or_not cur w K in
      if cur_v then (true, Some cur)
      else brute_force_loop L rest (fst st, Some cur)
  end.

(** [brute_force()]: [None] stands for the [UnboundLocalError] that
    [return has_sol, cur] raises when the loop body never ran. *)
Definition brute_force : option (bool * assignment) :=
  let L := num_nodes in
  let max := (2 ^ L)%nat in
  let has_sol := false in
  match brute_force_loop L (Py.range max) (has_sol, None) with
  | (has_sol', Some cur) => Some (has_sol', cur)
  | (_, None) => None
  end.

End BruteForce.

(** ** The imported [clique] module *)

(** Error kinds of the specification's section 7. *)
Inductive error : Set :=
| InvalidSpec
| InvalidGraph
| DecodeError.

Definition result (A : Type) := (error + A)%type.

(** Sum of a Python list of ints. *)
Definition Zsum (l : list Z) : Z := fold_right Z.add 0 l.

(** [W[i][j]], reading [0] outside the matrix. *)
Definition weight (w : graph) (i j : nat) : Z := nth j (nth i w []) 0.

(** Edge [(i,j)] exists iff [W[i][j] <> 0]. *)
Definition has_edge (w : graph) (i j : nat) : bool := negb (weight w i j =? 0).

(** The nodes an assignment selects: the positions holding [1]. *)
Definition selected_nodes (x : assignment) : list nat :=
  filter (fun i => nth i x 0 =? 1) (seq 0 (length x)).

(** Modelled from the spec: [clique.satisfy_or_not] is imported by the
    notebook and its body is not part of it.  Section 4.3: feasible iff
    (a) exactly [K] entries equal [1] and (b) every pair of selected nodes
    [i <> j] is an edge; the check stops at the first violation. *)
Definition satisfy_or_not (x : assignment) (w : graph) (K : Z) : bool :=
  let sel := selected_nodes x in
  (Z.of_nat (length sel) =? K)
  && forallb (fun i => forallb (fun j => (i =? j)%nat || has_edge w i j) sel) sel.

(** The invariant of a WeightedGraph (section 3): square, symmetric, zero
    diagonal. *)
Definition valid_graph (w : graph) : bool :=
  let N := length w in
  forallb (fun row => (length row =? N)%nat) w
  && forallb (fun i =>
       (weight w i i =? 0)
       && forallb (fun j => weight w i j =? weight w j i) (seq 0 N))
     (seq 0 N).

(** The spin encoding of section 3: [s_i = 2 x_i - 1]. *)
Definition spin_of (x : assignment) : list Z := map (fun b => 2 * b - 1) x.

(** First penalty of section 4.2: [(sum_i s_i - (2K - N))^2]. *)
Definition size_penalty (N : nat) (K : Z) (s : list Z) : Z :=
  (Zsum s - (2 * K - Z.of_nat N)) ^ 2.

(** The summand of the second penalty for the ordered pair [(i,j)]. *)
Definition nonedge_term (w : graph) (s : list Z) (i j : nat) : Z :=
  if (i =? j)%nat || has_edge w i j then 0
  else (1 + nth i s 0) * (1 + nth j s 0).

(** Second penalty of section 4.2: the sum over the pairs [i <> j] that
    are not an edge of [(1 + s_i)(1 + s_j)]. *)
Definition nonedge_penalty (w : graph) (N : nat) (s : list Z) : Z :=
  Zsum (map (fun i => Zsum (map (nonedge_term w s i) (seq 0 N))) (seq 0 N)).

(** [E(s)] of section 4.2 with penalty coefficients [A] and [B]. *)
Definition energy (A B : Z) (w : graph) (K : Z) (s : list Z) : Z :=
  let N := length w in
  A * size_penalty N K s + B * nonedge_penalty w N s.

(** An energy model, given by its energy function over spin vectors. *)
Definition EnergyModel := list Z -> Z.

(** Modelled from the spec: [clique.get_clique_qubitops], the
    EnergyModelBuilder, is imported by the notebook and its body is not
    part of it.  Section 4.2: validation first ([K < 1] or [K > N] gives
    [InvalidSpec], a malformed matrix gives [InvalidGraph]), then the
    model of [E]. *)
Definition build (A B : Z) (w : graph) (K : Z) : result EnergyModel :=
  let N := length w in
  if (K <? 1) || (K >? Z.of_nat N) then inl InvalidSpec
  else if negb (valid_graph w) then inl InvalidGraph
  else inr (energy A B w K).

(** An amplitude: a complex number, real and imaginary part. *)
Definition amplitude := (Q * Q)%type.

(** Probability of an amplitude: its squared magnitude. *)
Definition probability (a : amplitude) : Q :=
  (fst a * fst a + snd a * snd a)%Q.

(** Scan for the largest value; [best] is replaced only by a strictly
    larger one, so the smallest index wins a tie. *)
Fixpoint argmax_from (ps : list Q) (i best : nat) (bestp : Q) : nat :=
  match ps with
  | [] => best
  | p :: rest =>
      if Qle_bool p bestp then argmax_from rest (S i) best bestp
      else argmax_from rest (S i) i p
  end.

Definition argmax (ps : list Q) : nat :=
  match ps with
  | [] => 0%nat
  | p :: rest => argmax_from rest 1 0 p
  end.

(** Modelled from the spec: [clique.sample_most_likely] is imported by the
    notebook and its body is not part of it.  Section 4.4: a vector whose
    length is not [2^n] gives [DecodeError]; otherwise the index of largest
    probability, smallest index on ties, decoded with the bit order of
    [brute_force], that is with [bitfield]. *)
Definition sample_most_likely (n : nat) (amplitudes : list amplitude)
  : result assignment :=
  if (length amplitudes =? 2 ^ n)%nat
  then inr (bitfield (Z.of_nat (argmax (map probability amplitudes))) n)
  else inl DecodeError.

(** Modelled from the spec: [clique.get_graph_solution] is imported by the
    notebook and its body is not part of it.  Section 4.4: solver values
    (bits, spins, or fractions to be thresholded) are normalised to
    membership bits by inverting [s_i = 2 x_i - 1]: node [i] is selected
    iff [(v_i + 1) / 2 > 1/2], that is iff [v_i > 0]. *)
Definition get_graph_solution (x : list Q) : assignment :=
  map (fun v => if Qle_bool v 0 then 0 else 1) x.

(** The demo graph printed by the notebook ([np.random.seed(100)],
    5 nodes). *)
Definition demo_graph : graph :=
  [[0; 4; 5; 3; -5];
   [4; 0; 7; 0; 6];
   [5; 7; 0; -4; 0];
   [3; 0; -4; 0; 8];
   [-5; 6; 0; 8; 0]].

(** ** Vocabulary of the statements *)

(** An entry that is a membership bit. *)
Definition is_bit (b : Z) : Prop := b = 0 \/ b = 1.

(** The bits of a positive number, least significant first. *)
Fixpoint pos_bits (p : positive) : list bool :=
  match p with
  | xH => [true]
  | xO q => false :: pos_bits q
  | xI q => true :: pos_bits q
  end.

(** The character [bin] writes for a bit. *)
Definition digit_of_bit (b : bool) : ascii := if b then "1"%char else "0"%char.

(** The verifier's answer on the decoding of [i] at width [L]. *)
Definition accepts (verifier : assignment -> graph -> Z -> bool)
           (w : graph) (K : Z) (L : nat) (i : Z) : bool :=
  verifier (bitfield i L) w K.

(** Number of entries equal to [1]. *)
Definition ones (x : assignment) : nat := count_occ Z.eq_dec x 1.

(** Condition (b) of section 4.3: every two distinct selected nodes are
    joined by an edge. *)
Definition pairwise_adjacent (x : assignment) (w : graph) : Prop :=
  forall i j, (i < length x)%nat -> (j < length x)%nat -> i <> j ->
    nth i x 0 = 1 -> nth j x 0 = 1 -> weight w i j <> 0.

(** The contract of section 4.3 for a verifier: it answers [True] exactly
    on the vectors with [K] entries equal to [1] whose selected nodes are
    pairwise adjacent. *)
Definition meets_spec (verifier : assignment -> graph -> Z -> bool) : Prop :=
  forall x w K,
    verifier x w K = true
    <-> Z.of_nat (ones x) = K /\ pairwise_adjacent x w.

(** The number a bit vector spells, first entry most significant: what
    [int(''.join(map(str, x)), 2)] reads back. *)
Definition int_of_bits (x : assignment) : Z :=
  fold_left (fun acc b => 2 * acc + b) x 0.

(** The probability vector of an amplitude vector. *)
Definition probabilities (amplitudes : list amplitude) : list Q :=
  map probability amplitudes.

(** The values a solver hands back for a spin vector. *)
Definition solver_values (s : list Z) : list Q := map inject_Z s.

(** * Properties *)

(** ** Layout of [bitfield] *)

Lemma int_of_digit_of_bit (b : bool) :
  Py.int_of_digit (digit_of_bit b) = Z.b2z b.
Proof. destruct b; reflexivity. Qed.

Lemma bin_digits_acc (p : positive) :
  forall acc, Py.bin_digits p acc = rev (map digit_of_bit (pos_bits p)) ++ acc.
Proof.
  induction p as [q IH | q IH |]; intros acc; simpl.
  - rewrite IH, <- app_assoc. reflexivity.
  - rewrite IH, <- app_assoc. reflexivity.
  - reflexivity.
Qed.

Lemma bin_digits_bits (p : positive) :
  Py.bin_digits p [] = rev (map digit_of_bit (pos_bits p)).
Proof. rewrite bin_digits_acc. apply app_nil_r. Qed.

Lemma bin_digits_length (p : positive) :
  length (Py.bin_digits p []) = length (pos_bits p).
Proof. rewrite bin_digits_bits, length_rev, length_map. reflexivity. Qed.

Lemma int_of_bin_digits (p : positive) :
  map Py.int_of_digit (Py.bin_digits p []) = rev (map Z.b2z (pos_bits p)).
Proof.
  rewrite bin_digits_bits, map_rev, map_map. f_equal.
  apply map_ext. exact int_of_digit_of_bit.
Qed.

(** Position [m] of the bit list is bit [m] of the number, also past its
    end. *)
Lemma pos_bits_testbit (p : positive) :
  forall m, nth m (map Z.b2z (pos_bits p)) 0
            = Z.b2z (Z.testbit (Zpos p) (Z.of_nat m)).
Proof.
  induction p as [q IH | q IH |]; intros [| m].
  - reflexivity.
  - cbn [pos_bits map nth]. rewrite IH, Nat2Z.inj_succ, Pos2Z.inj_xI.
    rewrite Z.testbit_odd_succ by lia. reflexivity.
  - reflexivity.
  - cbn [pos_bits map nth]. rewrite IH, Nat2Z.inj_succ, Pos2Z.inj_xO.
    rewrite Z.testbit_even_succ by lia. reflexivity.
  - reflexivity.
  - cbn [pos_bits map nth]. rewrite Nat2Z.inj_succ.
    rewrite (Z.bits_above_log2 1) by (cbn; lia).
    destruct m; reflexivity.
Qed.

Lemma pos_bits_size (p : positive) :
  2 ^ Z.of_nat (length (pos_bits p)) <= 2 * Zpos p.
Proof.
  induction p as [q IH | q IH |]; cbn [pos_bits length].
  - rewrite Nat2Z.inj_succ, Z.pow_succ_r by lia. lia.
  - rewrite Nat2Z.inj_succ, Z.pow_succ_r by lia. lia.
  - reflexivity.
Qed.

Lemma pos_bits_fit (p : positive) (L : nat) :
  Zpos p < 2 ^ Z.of_nat L -> (length (pos_bits p) <= L)%nat.
Proof.
  intros Hlt. pose proof (pos_bits_size p) as Hsz.
  destruct (Nat.le_gt_cases (length (pos_bits p)) L) as [Hle | Hgt]; [exact Hle |].
  exfalso.
  assert (2 ^ Z.of_nat (S L) <= 2 ^ Z.of_nat (length (pos_bits p))) as Hpow
    by (apply Z.pow_le_mono_r; lia).
  rewrite Nat2Z.inj_succ, Z.pow_succ_r in Hpow by lia. lia.
Qed.

(** [bitfield] of a positive number that fits: the bits, padded, reversed. *)
Lemma bitfield_pos (p : positive) (L : nat) :
  (length (pos_bits p) <= L)%nat ->
  bitfield (Zpos p) L
  = rev (map Z.b2z (pos_bits p) ++ repeat 0 (L - length (pos_bits p))).
Proof.
  intros Hfit. unfold bitfield, Np.binary_repr, Py.zfill.
  cbv zeta. rewrite bin_digits_length, Nat.max_r by exact Hfit.
  rewrite map_app, int_of_bin_digits, rev_app_distr, rev_repeat.
  f_equal. apply map_repeat.
Qed.

Lemma bitfield_zero (L : nat) :
  (1 <= L)%nat -> bitfield 0 L = repeat 0 L.
Proof.
  intros HL. unfold bitfield, Np.binary_repr.
  destruct L as [| L']; [lia |]. apply map_repeat.
Qed.

Lemma bitfield_length (n : Z) (L : nat) :
  (1 <= L)%nat -> 0 <= n < 2 ^ Z.of_nat L -> length (bitfield n L) = L.
Proof.
  intros HL [Hlo Hhi]. destruct n as [| p | p]; [| | lia].
  - rewrite bitfield_zero by exact HL. apply repeat_length.
  - pose proof (pos_bits_fit p L Hhi) as Hfit.
    rewrite bitfield_pos by exact Hfit.
    rewrite length_rev, length_app, length_map, repeat_length. lia.
Qed.

Lemma bitfield_nth (n : Z) (L k : nat) :
  (1 <= L)%nat -> 0 <= n < 2 ^ Z.of_nat L -> (k < L)%nat ->
  nth k (bitfield n L) 0 = Z.b2z (Z.testbit n (Z.of_nat (L - 1 - k))).
Proof.
  intros HL [Hlo Hhi] Hk. destruct n as [| p | p]; [| | lia].
  - rewrite bitfield_zero by exact HL. rewrite Z.testbit_0_l.
    apply nth_repeat.
  - pose proof (pos_bits_fit p L Hhi) as Hfit.
    rewrite bitfield_pos by exact Hfit.
    set (l := map Z.b2z (pos_bits p) ++ repeat 0 (L - length (pos_bits p))).
    assert (length l = L) as Hlen
      by (unfold l; rewrite length_app, length_map, repeat_length; lia).
    rewrite rev_nth by lia. rewrite Hlen.
    replace (L - S k)%nat with (L - 1 - k)%nat by lia.
    rewrite <- pos_bits_testbit. unfold l.
    destruct (Nat.lt_ge_cases (L - 1 - k) (length (pos_bits p))) as [Hin | Hout].
    + apply app_nth1. rewrite length_map. exact Hin.
    + rewrite app_nth2 by (rewrite length_map; exact Hout).
      rewrite nth_repeat. symmetry. apply nth_overflow.
      rewrite length_map. exact Hout.
Qed.

Lemma b2z_is_bit (b : bool) : is_bit (Z.b2z b).
Proof. destruct b; [right | left]; reflexivity. Qed.

Lemma bitfield_bits (n : Z) (L : nat) :
  (1 <= L)%nat -> 0 <= n < 2 ^ Z.of_nat L -> Forall is_bit (bitfield n L).
Proof.
  intros HL Hn. apply Forall_forall. intros b Hb.
  destruct (In_nth _ _ 0 Hb) as [k [Hk Hnth]].
  rewrite bitfield_length in Hk by assumption.
  rewrite <- Hnth, bitfield_nth by assumption. apply b2z_is_bit.
Qed.

(** Whatever the width, a non-negative number decodes to bits only. *)
Lemma bitfield_nonneg_bits (n : Z) (L : nat) :
  0 <= n -> Forall is_bit (bitfield n L).
Proof.
  intros Hn. destruct n as [| p | p]; [| | lia].
  - unfold bitfield, Np.binary_repr. rewrite map_repeat.
    apply Forall_forall. intros b Hb. apply repeat_spec in Hb.
    left. exact Hb.
  - unfold bitfield, Np.binary_repr, Py.zfill. cbv zeta.
    rewrite map_app, map_repeat, int_of_bin_digits.
    apply Forall_app. split.
    + apply Forall_forall. intros b Hb. apply repeat_spec in Hb.
      left. exact Hb.
    + apply Forall_rev, Forall_forall. intros b Hb.
      apply in_map_iff in Hb. destruct Hb as [c [Hc _]].
      rewrite <- Hc. apply b2z_is_bit.
Qed.

(** The largest index decodes to the all-ones vector. *)
Lemma bitfield_all_ones (L : nat) :
  (1 <= L)%nat -> bitfield (2 ^ Z.of_nat L - 1) L = repeat 1 L.
Proof.
  intros HL.
  assert (0 < 2 ^ Z.of_nat L) as Hpos by (apply Z.pow_pos_nonneg; lia).
  assert (0 <= 2 ^ Z.of_nat L - 1 < 2 ^ Z.of_nat L) as Hrange by lia.
  apply (nth_ext _ _ 0 0).
  - rewrite bitfield_length, repeat_length by assumption. reflexivity.
  - intros k Hk. rewrite bitfield_length in Hk by assumption.
    rewrite bitfield_nth, nth_repeat_lt by assumption.
    replace (2 ^ Z.of_nat L - 1) with (Z.ones (Z.of_nat L))
      by (rewrite Z.ones_equiv; lia).
    rewrite Z.ones_spec_low by lia. reflexivity.
Qed.

(** ** The search loop *)

Section BruteForceFacts.

Variable verifier : assignment -> graph -> Z -> bool.
Variable w : graph.
Variable K : Z.

(** The loop stops at the first accepted index. *)
Lemma loop_first_success (L : nat) (pre post : list Z) (i : Z) :
  forall st,
    Forall (fun j => accepts verifier w K L j = false) pre ->
    accepts verifier w K L i = true ->
    brute_force_loop verifier w K L (pre ++ i :: post) st
    = (true, Some (bitfield i L)).
Proof.
  induction pre as [| j pre IH]; intros st Hpre Hi; simpl.
  - unfold accepts in Hi. rewrite Hi. reflexivity.
  - inversion Hpre as [| ? ? Hj Hrest]; subst.
    unfold accepts in Hj. rewrite Hj. apply IH; assumption.
Qed.

(** With no accepted index the loop runs to the end: the flag is not
    touched and [cur] stays bound to the last decoding. *)
Lemma loop_exhausted (L : nat) (idxs : list Z) (i : Z) :
  forall st,
    Forall (fun j => accepts verifier w K L j = false) (idxs ++ [i]) ->
    brute_force_loop verifier w K L (idxs ++ [i]) st
    = (fst st, Some (bitfield i L)).
Proof.
  induction idxs as [| j idxs IH]; intros st Hall; simpl in *.
  - inversion Hall as [| ? ? Hi _]; subst.
    unfold accepts in Hi. rewrite Hi. reflexivity.
  - inversion Hall as [| ? ? Hj Hrest]; subst.
    unfold accepts in Hj. rewrite Hj. rewrite IH by exact Hrest.
    reflexivity.
Qed.

(** A [true] flag out of a loop entered with [false] comes from an
    accepted decoding. *)
Lemma loop_success_sound (L : nat) (idxs : list Z) :
  forall cur0 x,
    brute_force_loop verifier w K L idxs (false, cur0) = (true, Some x) ->
    verifier x w K = true /\ exists i, In i idxs /\ x = bitfield i L.
Proof.
  induction idxs as [| j idxs IH]; intros cur0 x Hrun; simpl in Hrun.
  - discriminate.
  - destruct (verifier (bitfield j L) w K) eqn:Hj.
    + inversion Hrun; subst. split; [exact Hj |].
      exists j. split; [left |]; reflexivity.
    + destruct (IH _ _ Hrun) as [Hx [i [Hin Hxi]]].
      split; [exact Hx |]. exists i. split; [right |]; assumption.
Qed.

End BruteForceFacts.

(** [range(n)] split at one of its members. *)
Lemma range_split (n i : nat) :
  (i < n)%nat ->
  Py.range n
  = Py.range i ++ Z.of_nat i :: map Z.of_nat (seq (S i) (n - S i)).
Proof.
  intros Hi. unfold Py.range.
  replace n with (i + S (n - S i))%nat at 1 by lia.
  rewrite seq_app, map_app. reflexivity.
Qed.

Lemma range_In (n : nat) (i : Z) :
  In i (Py.range n) <-> 0 <= i < Z.of_nat n.
Proof.
  unfold Py.range. rewrite in_map_iff. split.
  - intros [k [Hk Hin]]. apply in_seq in Hin. lia.
  - intros Hi. exists (Z.to_nat i). split; [lia |]. apply in_seq. lia.
Qed.

Lemma pow2_nat_Z (L : nat) : Z.of_nat (2 ^ L) = 2 ^ Z.of_nat L.
Proof. rewrite Nat2Z.inj_pow. reflexivity. Qed.

(** A boolean search over an initial segment of the naturals either finds
    a least hit or misses everywhere. *)
Lemma least_hit (f : nat -> bool) (n : nat) :
  (exists i, (i < n)%nat /\ f i = true
             /\ forall j, (j < i)%nat -> f j = false)
  \/ (forall i, (i < n)%nat -> f i = false).
Proof.
  induction n as [| n [[i [Hi [Hfi Hmin]]] | Hnone]].
  - right. intros i Hi. lia.
  - left. exists i. repeat split; [lia | exact Hfi | exact Hmin].
  - destruct (f n) eqn:Hfn.
    + left. exists n. repeat split; [lia | exact Hfn | exact Hnone].
    + right. intros i Hi.
      destruct (Nat.eq_dec i n) as [-> | Hne]; [exact Hfn |].
      apply Hnone. lia.
Qed.

(** ** [brute_force] as a whole *)

Lemma brute_force_found (verifier : assignment -> graph -> Z -> bool)
      (N : nat) (w : graph) (K : Z) (i : nat) :
  (i < 2 ^ N)%nat ->
  verifier (bitfield (Z.of_nat i) N) w K = true ->
  (forall j, (j < i)%nat -> verifier (bitfield (Z.of_nat j) N) w K = false) ->
  brute_force verifier N w K = Some (true, bitfield (Z.of_nat i) N).
Proof.
  intros Hi Hacc Hmin. unfold brute_force. cbv zeta.
  rewrite (range_split _ _ Hi).
  rewrite (loop_first_success verifier w K N); [reflexivity | | exact Hacc].
  apply Forall_forall. intros j Hj. apply range_In in Hj.
  unfold accepts. rewrite <- (Z2Nat.id j) by lia. apply Hmin. lia.
Qed.

Lemma brute_force_exhausted (verifier : assignment -> graph -> Z -> bool)
      (N : nat) (w : graph) (K : Z) :
  (forall i, (i < 2 ^ N)%nat ->
             verifier (bitfield (Z.of_nat i) N) w K = false) ->
  brute_force verifier N w K
  = Some (false, bitfield (2 ^ Z.of_nat N - 1) N).
Proof.
  intros Hnone. unfold brute_force. cbv zeta.
  assert (0 < 2 ^ N)%nat as Hpos by (apply Nat.neq_0_lt_0, Nat.pow_nonzero; lia).
  assert (Py.range (2 ^ N)
          = Py.range (2 ^ N - 1) ++ [Z.of_nat (2 ^ N - 1)]) as Hsplit.
  { rewrite (range_split (2 ^ N) (2 ^ N - 1)) by lia.
    replace (2 ^ N - S (2 ^ N - 1))%nat with 0%nat by lia. reflexivity. }
  rewrite Hsplit.
  rewrite (loop_exhausted verifier w K N).
  - cbn [fst]. rewrite Nat2Z.inj_sub, pow2_nat_Z by lia. reflexivity.
  - rewrite <- Hsplit. apply Forall_forall. intros j Hj.
    apply range_In in Hj. unfold accepts.
    rewrite <- (Z2Nat.id j) by lia. apply Hnone. lia.
Qed.

(** A miss on every listed index, read off a boolean check. *)
Lemma range_all_rejected (verifier : assignment -> graph -> Z -> bool)
      (N : nat) (w : graph) (K : Z) :
  forallb (fun i => negb (verifier (bitfield i N) w K)) (Py.range (2 ^ N))
  = true ->
  forall i, 0 <= i < 2 ^ Z.of_nat N -> verifier (bitfield i N) w K = false.
Proof.
  intros Hall i Hi. rewrite forallb_forall in Hall.
  apply negb_true_iff, Hall, range_In. rewrite pow2_nat_Z. exact Hi.
Qed.

(** C10 (as stated, refuted at width 0): [np.binary_repr(0, 0)] is ['0'],
    since numpy pads zero to [width or 1] characters, so [bitfield(0, 0)]
    has one entry although [0 <= 0 < 2^0]. *)
Lemma bitfield_width_zero_counterexample :
  0 <= 0 < 2 ^ Z.of_nat 0
  /\ bitfield 0 0 = [0]
  /\ length (bitfield 0 0) <> 0%nat
  /\ ~ (forall (L : nat) (n : Z),
          0 <= n < 2 ^ Z.of_nat L -> length (bitfield n L) = L).
Proof.
  assert (0 <= 0 < 2 ^ Z.of_nat 0) as Hin by (cbn; lia).
  split; [exact Hin |]. split; [reflexivity |].
  split; [cbn; discriminate |].
  intros Hall. specialize (Hall 0%nat 0 Hin). cbn in Hall. discriminate.
Qed.

(** C10 (amended): for every width [L >= 1] and every [0 <= n < 2^L],
    [bitfield(n, L)] has exactly [L] entries, each [0] or [1], and the entry
    at position [k] is bit [L-1-k] of [n]: most significant bit first. *)
Theorem bitfield_msb_first (L : nat) (n : Z) :
  (1 <= L)%nat ->
  0 <= n < 2 ^ Z.of_nat L ->
  length (bitfield n L) = L
  /\ Forall is_bit (bitfield n L)
  /\ forall k, (k < L)%nat ->
       nth k (bitfield n L) 0 = Z.b2z (Z.testbit n (Z.of_nat (L - 1 - k))).
Proof.
  intros HL Hn. split; [| split].
  - apply bitfield_length; assumption.
  - apply bitfield_bits; assumption.
  - intros k Hk. apply bitfield_nth; assumption.
Qed.

Lemma bitfield_msb_first_witness :
  length (bitfield 19 5) = 5%nat
  /\ Forall is_bit (bitfield 19 5)
  /\ forall k, (k < 5)%nat ->
       nth k (bitfield 19 5) 0 = Z.b2z (Z.testbit 19 (Z.of_nat (5 - 1 - k))).
Proof.
  apply (bitfield_msb_first 5 19); [lia | cbn; lia].
Defined.

(** C3: for a graph on [N >= 1] nodes, [brute_force] decodes every index
    [0 <= i < 2^N] with [bitfield] to an [N]-entry, most-significant-first
    vector, and walks the indices upwards: either some index is accepted by
    the verifier, and the result is [(True, bitfield(i, N))] for the
    smallest accepted [i], or none is, and the flag returned is [False]. *)
Theorem brute_force_first_success
        (verifier : assignment -> graph -> Z -> bool)
        (N : nat) (w : graph) (K : Z) :
  (1 <= N)%nat ->
  (forall i, 0 <= i < 2 ^ Z.of_nat N ->
     length (bitfield i N) = N
     /\ forall k, (k < N)%nat ->
          nth k (bitfield i N) 0
          = Z.b2z (Z.testbit i (Z.of_nat (N - 1 - k))))
  /\ ((exists i, 0 <= i < 2 ^ Z.of_nat N
                 /\ verifier (bitfield i N) w K = true
                 /\ (forall j, 0 <= j < i ->
                       verifier (bitfield j N) w K = false)
                 /\ brute_force verifier N w K = Some (true, bitfield i N))
      \/ ((forall i, 0 <= i < 2 ^ Z.of_nat N ->
             verifier (bitfield i N) w K = false)
          /\ exists x, brute_force verifier N w K = Some (false, x))).
Proof.
  intros HN. split.
  - intros i Hi. split.
    + apply bitfield_length; assumption.
    + intros k Hk. apply bitfield_nth; assumption.
  - destruct (least_hit (fun i => verifier (bitfield (Z.of_nat i) N) w K)
                        (2 ^ N)) as [[i [Hi [Hacc Hmin]]] | Hnone].
    + left. exists (Z.of_nat i). rewrite <- pow2_nat_Z.
      split; [lia |]. split; [exact Hacc |]. split.
      * intros j Hj. rewrite <- (Z2Nat.id j) by lia. apply Hmin. lia.
      * apply brute_force_found; assumption.
    + right. split.
      * intros i Hi. rewrite <- pow2_nat_Z in Hi.
        rewrite <- (Z2Nat.id i) by lia. apply Hnone. lia.
      * eexists. apply brute_force_exhausted. exact Hnone.
Qed.

(** C9: for a graph on [N >= 1] nodes, when the verifier rejects the
    decoding of every index below [2^N], [brute_force] still returns a
    pair: the flag [False] and the last decoding, the all-ones vector of
    length [N], which the verifier rejects. *)
Theorem brute_force_no_solution_returns_all_ones
        (verifier : assignment -> graph -> Z -> bool)
        (N : nat) (w : graph) (K : Z) :
  (1 <= N)%nat ->
  (forall i, 0 <= i < 2 ^ Z.of_nat N ->
     verifier (bitfield i N) w K = false) ->
  brute_force verifier N w K = Some (false, repeat 1 N)
  /\ verifier (repeat 1 N) w K = false.
Proof.
  intros HN Hnone.
  assert (0 < 2 ^ Z.of_nat N) as Hpos by (apply Z.pow_pos_nonneg; lia).
  split.
  - rewrite brute_force_exhausted.
    + rewrite bitfield_all_ones by exact HN. reflexivity.
    + intros i Hi. apply Hnone. rewrite <- pow2_nat_Z. lia.
  - rewrite <- (bitfield_all_ones N HN). apply Hnone. lia.
Qed.

(** ** The verifier *)

Lemma selected_nodes_In (x : assignment) (i : nat) :
  In i (selected_nodes x) <-> (i < length x)%nat /\ nth i x 0 = 1.
Proof.
  unfold selected_nodes. rewrite filter_In, in_seq, Z.eqb_eq. lia.
Qed.

Lemma selected_from_length (x : assignment) :
  forall k,
    length (filter (fun i => nth (i - k) x 0 =? 1) (seq k (length x)))
    = ones x.
Proof.
  unfold ones. induction x as [| a x IH]; intros k; [reflexivity |].
  cbn [length seq filter].
  assert (filter (fun i => nth (i - k) (a :: x) 0 =? 1) (seq (S k) (length x))
          = filter (fun i => nth (i - S k) x 0 =? 1) (seq (S k) (length x)))
    as Htail.
  { apply filter_ext_in. intros i Hi. apply in_seq in Hi.
    replace (i - k)%nat with (S (i - S k)) by lia. reflexivity. }
  rewrite Htail, Nat.sub_diag. cbn [nth count_occ].
  destruct (Z.eq_dec a 1) as [-> | Hne].
  - cbn [Z.eqb Pos.eqb length]. f_equal. apply IH.
  - destruct (a =? 1) eqn:Ha; [apply Z.eqb_eq in Ha; contradiction |].
    apply IH.
Qed.

Lemma selected_nodes_length (x : assignment) :
  length (selected_nodes x) = ones x.
Proof.
  rewrite <- (selected_from_length x 0). unfold selected_nodes. f_equal.
  apply filter_ext. intros i. rewrite Nat.sub_0_r. reflexivity.
Qed.

Lemma has_edge_true (w : graph) (i j : nat) :
  has_edge w i j = true <-> weight w i j <> 0.
Proof. unfold has_edge. rewrite negb_true_iff, Z.eqb_neq. reflexivity. Qed.

Lemma pairs_check_spec (x : assignment) (w : graph) :
  forallb (fun i =>
             forallb (fun j => (i =? j)%nat || has_edge w i j)
                     (selected_nodes x))
          (selected_nodes x) = true
  <-> pairwise_adjacent x w.
Proof.
  rewrite forallb_forall. split.
  - intros Hchk i j Hi Hj Hne Hxi Hxj.
    assert (In i (selected_nodes x)) as Hseli by (apply selected_nodes_In; auto).
    assert (In j (selected_nodes x)) as Hselj by (apply selected_nodes_In; auto).
    specialize (Hchk i Hseli). rewrite forallb_forall in Hchk.
    specialize (Hchk j Hselj). apply orb_true_iff in Hchk.
    destruct Hchk as [Heq | Hedge].
    + apply Nat.eqb_eq in Heq. contradiction.
    + apply has_edge_true. exact Hedge.
  - intros Hadj i Hseli. apply forallb_forall. intros j Hselj.
    apply selected_nodes_In in Hseli, Hselj.
    destruct Hseli as [Hi Hxi]. destruct Hselj as [Hj Hxj].
    destruct (Nat.eq_dec i j) as [-> | Hne].
    + rewrite Nat.eqb_refl. reflexivity.
    + apply orb_true_iff. right. apply has_edge_true.
      apply Hadj; assumption.
Qed.

Lemma satisfy_or_not_true_iff (x : assignment) (w : graph) (K : Z) :
  satisfy_or_not x w K = true
  <-> Z.of_nat (ones x) = K /\ pairwise_adjacent x w.
Proof.
  unfold satisfy_or_not. cbv zeta.
  rewrite andb_true_iff, Z.eqb_eq, selected_nodes_length, pairs_check_spec.
  reflexivity.
Qed.

(** C2: [satisfy_or_not] is a total boolean function, and it answers
    [True] exactly when the assignment has exactly [K] entries equal to [1]
    and every two distinct selected nodes [i], [j] are joined by an edge
    [(i,j)] of the graph. *)
Theorem satisfy_or_not_spec (x : assignment) (w : graph) (K : Z) :
  (satisfy_or_not x w K = true \/ satisfy_or_not x w K = false)
  /\ (satisfy_or_not x w K = true
      <-> Z.of_nat (ones x) = K /\ pairwise_adjacent x w).
Proof.
  split.
  - destruct (satisfy_or_not x w K); [left | right]; reflexivity.
  - apply satisfy_or_not_true_iff.
Qed.

Lemma Zsum_bits (x : assignment) :
  Forall is_bit x -> Zsum x = Z.of_nat (ones x).
Proof.
  unfold ones. induction 1 as [| b x [-> | ->] _ IH]; cbn [Zsum fold_right count_occ].
  - reflexivity.
  - fold (Zsum x). rewrite IH. destruct (Z.eq_dec 0 1); [discriminate | lia].
  - fold (Zsum x). rewrite IH. destruct (Z.eq_dec 1 1); [lia | contradiction].
Qed.

(** ** The oracle on top of the verifier *)

Lemma satisfy_or_not_meets_spec : meets_spec satisfy_or_not.
Proof. intros x w K. apply satisfy_or_not_true_iff. Qed.

(** Two verifiers that meet the contract give the same answers. *)
Lemma meets_spec_unique (v1 v2 : assignment -> graph -> Z -> bool) :
  meets_spec v1 -> meets_spec v2 ->
  forall x w K, v1 x w K = v2 x w K.
Proof.
  intros H1 H2 x w K.
  destruct (v1 x w K) eqn:E1, (v2 x w K) eqn:E2; try reflexivity.
  - apply H1, H2 in E1. congruence.
  - apply H2, H1 in E2. congruence.
Qed.

(** The loop only looks at the verifier's answers. *)
Lemma brute_force_loop_ext (v1 v2 : assignment -> graph -> Z -> bool)
      (w : graph) (K : Z) (L : nat) (idxs : list Z) :
  (forall x, v1 x w K = v2 x w K) ->
  forall st,
    brute_force_loop v1 w K L idxs st = brute_force_loop v2 w K L idxs st.
Proof.
  intros Hext. induction idxs as [| i idxs IH]; intros st; cbn [brute_force_loop].
  - reflexivity.
  - cbv zeta. rewrite Hext. destruct (v2 (bitfield i L) w K); [reflexivity |].
    apply IH.
Qed.

Lemma brute_force_ext (v1 v2 : assignment -> graph -> Z -> bool)
      (N : nat) (w : graph) (K : Z) :
  (forall x, v1 x w K = v2 x w K) ->
  brute_force v1 N w K = brute_force v2 N w K.
Proof.
  intros Hext. unfold brute_force. cbv zeta.
  rewrite (brute_force_loop_ext v1 v2 w K N _ Hext). reflexivity.
Qed.

(** C4: with a verifier that meets the contract of [satisfy_or_not],
    whenever [brute_force] reports success with assignment [x] (in
    particular for every valid [1 <= K <= N]), the verifier accepts [x],
    [x] has exactly [K] entries equal to [1], and [sum(x) == K]. *)
Theorem brute_force_sound
        (verifier : assignment -> graph -> Z -> bool)
        (N : nat) (w : graph) (K : Z) (x : assignment) :
  meets_spec verifier ->
  brute_force verifier N w K = Some (true, x) ->
  verifier x w K = true
  /\ Z.of_nat (ones x) = K
  /\ Zsum x = K.
Proof.
  intros Hspec. unfold brute_force. cbv zeta.
  destruct (brute_force_loop verifier w K N (Py.range (2 ^ N))
                             (false, None)) as [flag [cur |]] eqn:Hrun;
    [| discriminate].
  intros Hret. inversion Hret; subst flag cur.
  destruct (loop_success_sound _ _ _ _ _ _ _ Hrun) as [Hsat [i [Hin Hx]]].
  pose proof (proj1 (Hspec x w K) Hsat) as [Hones _].
  split; [exact Hsat |]. split; [exact Hones |].
  rewrite Zsum_bits; [exact Hones |].
  rewrite Hx. apply bitfield_nonneg_bits. apply range_In in Hin. lia.
Qed.

Lemma brute_force_sound_witness :
  satisfy_or_not [1; 0; 0; 1; 1] demo_graph 3 = true
  /\ Z.of_nat (ones [1; 0; 0; 1; 1]) = 3
  /\ Zsum [1; 0; 0; 1; 1] = 3.
Proof.
  apply (brute_force_sound satisfy_or_not 5 demo_graph 3 [1; 0; 0; 1; 1]).
  - exact satisfy_or_not_meets_spec.
  - vm_compute. reflexivity.
Defined.

(** C5: on the notebook's 5-node graph with [K = 3], and with a verifier
    that meets the contract of [satisfy_or_not], [brute_force] returns
    [(True, [1, 0, 0, 1, 1])]: exactly the three nodes 0, 3 and 4 are
    selected, each two of them are joined by an edge, and the verifier
    applied to that assignment, the graph and [K = 3] answers true. *)
Theorem brute_force_demo (verifier : assignment -> graph -> Z -> bool) :
  meets_spec verifier ->
  brute_force verifier 5 demo_graph 3 = Some (true, [1; 0; 0; 1; 1])
  /\ selected_nodes [1; 0; 0; 1; 1] = [0; 3; 4]%nat
  /\ ones [1; 0; 0; 1; 1] = 3%nat
  /\ weight demo_graph 0 3 = 3
  /\ weight demo_graph 0 4 = -5
  /\ weight demo_graph 3 4 = 8
  /\ pairwise_adjacent [1; 0; 0; 1; 1] demo_graph
  /\ verifier [1; 0; 0; 1; 1] demo_graph 3 = true.
Proof.
  intros Hspec.
  pose proof (meets_spec_unique _ _ Hspec satisfy_or_not_meets_spec) as Hsame.
  assert (satisfy_or_not [1; 0; 0; 1; 1] demo_graph 3 = true) as Hsat
    by (vm_compute; reflexivity).
  split.
  { rewrite (brute_force_ext verifier satisfy_or_not)
      by (intros x; apply Hsame).
    vm_compute. reflexivity. }
  split; [reflexivity |]. split; [reflexivity |].
  split; [reflexivity |]. split; [reflexivity |]. split; [reflexivity |].
  split; [| rewrite Hsame; exact Hsat].
  apply (satisfy_or_not_true_iff [1; 0; 0; 1; 1] demo_graph 3). exact Hsat.
Qed.

Lemma brute_force_demo_witness :
  brute_force satisfy_or_not 5 demo_graph 3 = Some (true, [1; 0; 0; 1; 1])
  /\ selected_nodes [1; 0; 0; 1; 1] = [0; 3; 4]%nat
  /\ ones [1; 0; 0; 1; 1] = 3%nat
  /\ weight demo_graph 0 3 = 3
  /\ weight demo_graph 0 4 = -5
  /\ weight demo_graph 3 4 = 8
  /\ pairwise_adjacent [1; 0; 0; 1; 1] demo_graph
  /\ satisfy_or_not [1; 0; 0; 1; 1] demo_graph 3 = true.
Proof.
  apply (brute_force_demo satisfy_or_not). exact satisfy_or_not_meets_spec.
Defined.

Lemma brute_force_first_success_witness :
  (forall i, 0 <= i < 2 ^ Z.of_nat 5 ->
     length (bitfield i 5) = 5%nat
     /\ forall k, (k < 5)%nat ->
          nth k (bitfield i 5) 0
          = Z.b2z (Z.testbit i (Z.of_nat (5 - 1 - k))))
  /\ ((exists i, 0 <= i < 2 ^ Z.of_nat 5
                 /\ satisfy_or_not (bitfield i 5) demo_graph 3 = true
                 /\ (forall j, 0 <= j < i ->
                       satisfy_or_not (bitfield j 5) demo_graph 3 = false)
                 /\ brute_force satisfy_or_not 5 demo_graph 3
                    = Some (true, bitfield i 5))
      \/ ((forall i, 0 <= i < 2 ^ Z.of_nat 5 ->
             satisfy_or_not (bitfield i 5) demo_graph 3 = false)
          /\ exists x, brute_force satisfy_or_not 5 demo_graph 3
                       = Some (false, x))).
Proof.
  apply (brute_force_first_success satisfy_or_not 5 demo_graph 3). lia.
Defined.

Lemma brute_force_no_solution_witness :
  brute_force satisfy_or_not 5 demo_graph 4 = Some (false, repeat 1 5%nat)
  /\ satisfy_or_not (repeat 1 5%nat) demo_graph 4 = false.
Proof.
  apply (brute_force_no_solution_returns_all_ones satisfy_or_not 5 demo_graph 4).
  - lia.
  - apply range_all_rejected. vm_compute. reflexivity.
Defined.

(** ** The energy model *)

Lemma Zsum_map_nonneg {A : Type} (f : A -> Z) (l : list A) :
  (forall a, In a l -> 0 <= f a) -> 0 <= Zsum (map f l).
Proof.
  induction l as [| a l IH]; intros Hf; cbn [map Zsum fold_right]; [lia |].
  fold (Zsum (map f l)).
  pose proof (Hf a (or_introl eq_refl)).
  assert (0 <= Zsum (map f l)) by (apply IH; intros; apply Hf; right; assumption).
  lia.
Qed.

Lemma Zsum_map_zero {A : Type} (f : A -> Z) (l : list A) :
  (forall a, In a l -> f a = 0) -> Zsum (map f l) = 0.
Proof.
  induction l as [| a l IH]; intros Hf; cbn [map Zsum fold_right]; [reflexivity |].
  fold (Zsum (map f l)).
  rewrite (Hf a (or_introl eq_refl)), IH; [reflexivity |].
  intros; apply Hf; right; assumption.
Qed.

Lemma Zsum_map_ge {A : Type} (f : A -> Z) (l : list A) (a : A) :
  (forall b, In b l -> 0 <= f b) -> In a l -> f a <= Zsum (map f l).
Proof.
  induction l as [| b l IH]; intros Hf Hin; [contradiction |].
  cbn [map Zsum fold_right]. fold (Zsum (map f l)).
  pose proof (Hf b (or_introl eq_refl)).
  assert (0 <= Zsum (map f l))
    by (apply Zsum_map_nonneg; intros; apply Hf; right; assumption).
  destruct Hin as [-> | Hin]; [lia |].
  assert (f a <= Zsum (map f l))
    by (apply IH; [intros; apply Hf; right |]; assumption).
  lia.
Qed.

Lemma forallb_false {A : Type} (f : A -> bool) (l : list A) :
  forallb f l = false -> exists a, In a l /\ f a = false.
Proof.
  induction l as [| b l IH]; cbn [forallb]; [discriminate |].
  destruct (f b) eqn:Hb; cbn [andb].
  - intros Hl. destruct (IH Hl) as [a [Hin Ha]].
    exists a. split; [right |]; assumption.
  - intros _. exists b. split; [left; reflexivity | exact Hb].
Qed.

Lemma spin_of_nth (x : assignment) (i : nat) :
  (i < length x)%nat -> nth i (spin_of x) 0 = 2 * nth i x 0 - 1.
Proof.
  intros Hi. unfold spin_of.
  rewrite (nth_indep _ 0 (2 * 0 - 1)) by (rewrite length_map; exact Hi).
  apply (map_nth (fun b => 2 * b - 1)).
Qed.

Lemma Zsum_spin_of (x : assignment) :
  Zsum (spin_of x) = 2 * Zsum x - Z.of_nat (length x).
Proof.
  induction x as [| b x IH]; [reflexivity |].
  cbn [spin_of map Zsum fold_right length].
  fold (spin_of x). fold (Zsum (spin_of x)). fold (Zsum x). lia.
Qed.

Lemma nth_bit (x : assignment) (i : nat) :
  Forall is_bit x -> is_bit (nth i x 0).
Proof.
  intros Hx. destruct (Nat.lt_ge_cases i (length x)) as [Hi | Hi].
  - rewrite Forall_forall in Hx. apply Hx, nth_In, Hi.
  - rewrite nth_overflow by exact Hi. left. reflexivity.
Qed.

(** On a membership vector the pair term is [4 x_i x_j] off the edges. *)
Lemma nonedge_term_bits (w : graph) (x : assignment) (i j : nat) :
  (i < length x)%nat -> (j < length x)%nat ->
  nonedge_term w (spin_of x) i j
  = if (i =? j)%nat || has_edge w i j then 0
    else 4 * nth i x 0 * nth j x 0.
Proof.
  intros Hi Hj. unfold nonedge_term.
  destruct ((i =? j)%nat || has_edge w i j); [reflexivity |].
  rewrite !spin_of_nth by assumption. lia.
Qed.

Lemma nonedge_term_nonneg (w : graph) (x : assignment) (i j : nat) :
  Forall is_bit x -> (i < length x)%nat -> (j < length x)%nat ->
  0 <= nonedge_term w (spin_of x) i j.
Proof.
  intros Hx Hi Hj. rewrite nonedge_term_bits by assumption.
  destruct ((i =? j)%nat || has_edge w i j); [lia |].
  destruct (nth_bit x i Hx) as [-> | ->], (nth_bit x j Hx) as [-> | ->]; lia.
Qed.

Lemma nonedge_penalty_nonneg (w : graph) (x : assignment) :
  Forall is_bit x -> 0 <= nonedge_penalty w (length x) (spin_of x).
Proof.
  intros Hx. unfold nonedge_penalty.
  apply Zsum_map_nonneg. intros i Hi. apply in_seq in Hi.
  apply Zsum_map_nonneg. intros j Hj. apply in_seq in Hj.
  apply nonedge_term_nonneg; [exact Hx | lia | lia].
Qed.

Lemma nonedge_penalty_clique (w : graph) (x : assignment) :
  Forall is_bit x -> pairwise_adjacent x w ->
  nonedge_penalty w (length x) (spin_of x) = 0.
Proof.
  intros Hx Hadj. unfold nonedge_penalty.
  apply Zsum_map_zero. intros i Hi. apply in_seq in Hi.
  apply Zsum_map_zero. intros j Hj. apply in_seq in Hj.
  rewrite nonedge_term_bits by lia.
  destruct (Nat.eqb_spec i j) as [Heq | Hne]; [reflexivity |].
  destruct (has_edge w i j) eqn:Hedge; [reflexivity |]. cbn [orb].
  destruct (nth_bit x i Hx) as [Hxi | Hxi]; [rewrite Hxi; lia |].
  destruct (nth_bit x j Hx) as [Hxj | Hxj]; [rewrite Hxj; lia |].
  exfalso. apply (Hadj i j); try lia; try assumption.
  unfold has_edge in Hedge. apply negb_false_iff, Z.eqb_eq in Hedge.
  exact Hedge.
Qed.

Lemma nonedge_penalty_violation (w : graph) (x : assignment) :
  Forall is_bit x ->
  forallb (fun i =>
             forallb (fun j => (i =? j)%nat || has_edge w i j)
                     (selected_nodes x))
          (selected_nodes x) = false ->
  4 <= nonedge_penalty w (length x) (spin_of x).
Proof.
  intros Hx Hchk.
  destruct (forallb_false _ _ Hchk) as [i [Hseli Hrow]].
  destruct (forallb_false _ _ Hrow) as [j [Hselj Hpair]].
  apply selected_nodes_In in Hseli, Hselj.
  destruct Hseli as [Hi Hxi]. destruct Hselj as [Hj Hxj].
  assert (nonedge_term w (spin_of x) i j = 4) as Hterm.
  { rewrite nonedge_term_bits by assumption. rewrite Hpair, Hxi, Hxj.
    reflexivity. }
  unfold nonedge_penalty. rewrite <- Hterm.
  etransitivity.
  - apply (Zsum_map_ge (nonedge_term w (spin_of x) i) (seq 0 (length x)) j).
    + intros j' Hj'. apply in_seq in Hj'.
      apply nonedge_term_nonneg; [exact Hx | lia | lia].
    + apply in_seq. lia.
  - apply (Zsum_map_ge
             (fun i' => Zsum (map (nonedge_term w (spin_of x) i')
                                  (seq 0 (length x))))
             (seq 0 (length x)) i).
    + intros i' Hi'. apply in_seq in Hi'.
      apply Zsum_map_nonneg. intros j' Hj'. apply in_seq in Hj'.
      apply nonedge_term_nonneg; [exact Hx | lia | lia].
    + apply in_seq. lia.
Qed.

Lemma size_penalty_bits (x : assignment) (K : Z) :
  Forall is_bit x ->
  size_penalty (length x) K (spin_of x) = 4 * (Z.of_nat (ones x) - K) ^ 2.
Proof.
  intros Hx. unfold size_penalty.
  rewrite Zsum_spin_of, Zsum_bits by exact Hx. nia.
Qed.

Lemma build_ok (A B : Z) (w : graph) (K : Z) (m : EnergyModel) :
  build A B w K = inr m ->
  m = energy A B w K
  /\ 1 <= K <= Z.of_nat (length w)
  /\ valid_graph w = true.
Proof.
  unfold build. cbv zeta.
  destruct ((K <? 1) || (K >? Z.of_nat (length w))) eqn:Hspec; [discriminate |].
  destruct (valid_graph w) eqn:Hgraph; cbn [negb]; [| discriminate].
  intros Hm. inversion Hm; subst m.
  apply orb_false_iff in Hspec. destruct Hspec as [Hlo Hhi].
  apply Z.ltb_ge in Hlo. rewrite Z.gtb_ltb in Hhi. apply Z.ltb_ge in Hhi.
  repeat split; lia.
Qed.

Lemma energy_feasible (A B : Z) (w : graph) (K : Z) (x : assignment) :
  length x = length w -> Forall is_bit x ->
  satisfy_or_not x w K = true ->
  energy A B w K (spin_of x) = 0.
Proof.
  intros Hlen Hx Hsat.
  apply satisfy_or_not_true_iff in Hsat. destruct Hsat as [Hones Hadj].
  unfold energy. cbv zeta. rewrite <- Hlen.
  rewrite size_penalty_bits, nonedge_penalty_clique by assumption.
  rewrite Hones. replace (K - K) with 0 by lia. lia.
Qed.

Lemma energy_infeasible (A B : Z) (w : graph) (K : Z) (x : assignment) :
  0 < A -> 0 < B ->
  length x = length w -> Forall is_bit x ->
  satisfy_or_not x w K = false ->
  Z.min A B <= energy A B w K (spin_of x).
Proof.
  intros HA HB Hlen Hx Hsat.
  unfold energy. cbv zeta. rewrite <- Hlen.
  pose proof (nonedge_penalty_nonneg w x Hx) as Hne.
  rewrite size_penalty_bits by exact Hx.
  unfold satisfy_or_not in Hsat. cbv zeta in Hsat.
  apply andb_false_iff in Hsat. destruct Hsat as [Hsize | Hpairs].
  - rewrite selected_nodes_length in Hsize. apply Z.eqb_neq in Hsize.
    assert (1 <= (Z.of_nat (ones x) - K) ^ 2) by nia.
    nia.
  - pose proof (nonedge_penalty_violation w x Hx Hpairs).
    assert (0 <= (Z.of_nat (ones x) - K) ^ 2) by nia.
    nia.
Qed.

(** C1: for a valid graph and [1 <= K <= N] (the builder succeeds) and
    penalty coefficients [A > 0], [B > 0], the energy of the model at the
    spin encoding of a membership vector is never negative, is [0] exactly
    when the vector is a feasible size-[K] clique, and is at least
    [min A B], hence strictly positive, at every infeasible vector. *)
Theorem energy_minimum_iff_clique
        (A B : Z) (w : graph) (K : Z) (m : EnergyModel) (x : assignment) :
  0 < A -> 0 < B ->
  build A B w K = inr m ->
  length x = length w -> Forall is_bit x ->
  0 <= m (spin_of x)
  /\ (m (spin_of x) = 0 <-> satisfy_or_not x w K = true)
  /\ (satisfy_or_not x w K = false ->
      Z.min A B <= m (spin_of x) /\ 0 < m (spin_of x)).
Proof.
  intros HA HB Hbuild Hlen Hx.
  destruct (build_ok _ _ _ _ _ Hbuild) as [-> _].
  assert (satisfy_or_not x w K = false ->
          Z.min A B <= energy A B w K (spin_of x)
          /\ 0 < energy A B w K (spin_of x)) as Hbad.
  { intros Hsat.
    pose proof (energy_infeasible A B w K x HA HB Hlen Hx Hsat). lia. }
  destruct (satisfy_or_not x w K) eqn:Hsat.
  - rewrite (energy_feasible A B w K x Hlen Hx Hsat).
    split; [lia |]. split; [tauto | discriminate].
  - destruct (Hbad eq_refl) as [Hmin Hpos].
    split; [lia |]. split; [| intros _; split; assumption].
    split; [lia | discriminate].
Qed.

Lemma energy_minimum_iff_clique_witness :
  0 <= energy 2 3 demo_graph 3 (spin_of [1; 0; 0; 1; 1])
  /\ (energy 2 3 demo_graph 3 (spin_of [1; 0; 0; 1; 1]) = 0
      <-> satisfy_or_not [1; 0; 0; 1; 1] demo_graph 3 = true)
  /\ (satisfy_or_not [1; 0; 0; 1; 1] demo_graph 3 = false ->
      Z.min 2 3 <= energy 2 3 demo_graph 3 (spin_of [1; 0; 0; 1; 1])
      /\ 0 < energy 2 3 demo_graph 3 (spin_of [1; 0; 0; 1; 1])).
Proof.
  apply (energy_minimum_iff_clique 2 3 demo_graph 3
           (energy 2 3 demo_graph 3) [1; 0; 0; 1; 1]).
  - lia.
  - lia.
  - vm_compute. reflexivity.
  - reflexivity.
  - repeat constructor; (left; reflexivity) || (right; reflexivity).
Defined.

(** C8: whatever the graph on [N] nodes, [build] fails with [InvalidSpec]
    whenever [K < 1] or [K > N]; no model is produced. *)
Theorem build_invalid_spec (A B : Z) (w : graph) (K : Z) :
  K < 1 \/ Z.of_nat (length w) < K ->
  build A B w K = inl InvalidSpec.
Proof.
  intros HK. unfold build. cbv zeta.
  assert ((K <? 1) || (K >? Z.of_nat (length w)) = true) as ->; [| reflexivity].
  apply orb_true_iff. rewrite Z.gtb_ltb, !Z.ltb_lt. exact HK.
Qed.

Lemma build_invalid_spec_witness :
  build 2 3 demo_graph 0 = inl InvalidSpec
  /\ build 2 3 demo_graph (Z.of_nat (length demo_graph) + 1) = inl InvalidSpec.
Proof.
  split.
  - apply (build_invalid_spec 2 3 demo_graph 0). left. lia.
  - apply (build_invalid_spec 2 3 demo_graph
             (Z.of_nat (length demo_graph) + 1)).
    right. lia.
Defined.

(** ** The decoder *)

(** The scan keeps a running first maximum of the part already read. *)
Lemma argmax_from_spec (ps : list Q) :
  forall (pre : list Q) (best : nat) (bestp : Q),
    (best < length pre)%nat ->
    nth best pre 0%Q = bestp ->
    (forall j, (j < length pre)%nat -> (nth j pre 0 <= bestp)%Q) ->
    (forall j, (j < best)%nat -> (nth j pre 0 < bestp)%Q) ->
    let k := argmax_from ps (length pre) best bestp in
    let all := pre ++ ps in
    (k < length all)%nat
    /\ (forall j, (j < length all)%nat -> (nth j all 0 <= nth k all 0)%Q)
    /\ (forall j, (j < k)%nat -> (nth j all 0 < nth k all 0)%Q).
Proof.
  induction ps as [| p rest IH]; intros pre best bestp Hbest Hval Hmax Hfirst;
    cbv zeta.
  - cbn [argmax_from]. rewrite app_nil_r, Hval. repeat split; assumption.
  - cbn [argmax_from].
    replace (pre ++ p :: rest) with ((pre ++ [p]) ++ rest)
      by (rewrite <- app_assoc; reflexivity).
    replace (S (length pre)) with (length (pre ++ [p]))
      by (rewrite length_app; cbn; lia).
    assert (forall j, (j < length pre)%nat ->
                      nth j (pre ++ [p]) 0%Q = nth j pre 0%Q) as Hold
      by (intros j Hj; apply app_nth1; exact Hj).
    assert (nth (length pre) (pre ++ [p]) 0%Q = p) as Hnew
      by (apply nth_middle).
    destruct (Qle_bool p bestp) eqn:Hcmp.
    + apply Qle_bool_iff in Hcmp. apply IH.
      * rewrite length_app. cbn. lia.
      * rewrite Hold by exact Hbest. exact Hval.
      * intros j Hj. rewrite length_app in Hj. cbn in Hj.
        destruct (Nat.eq_dec j (length pre)) as [-> | Hne].
        -- rewrite Hnew. exact Hcmp.
        -- rewrite Hold by lia. apply Hmax. lia.
      * intros j Hj. rewrite Hold by lia. apply Hfirst. exact Hj.
    + assert (bestp < p)%Q as Hlt.
      { apply Qnot_le_lt. intros Hle. apply Qle_bool_iff in Hle.
        rewrite Hle in Hcmp. discriminate. }
      apply IH.
      * rewrite length_app. cbn. lia.
      * exact Hnew.
      * intros j Hj. rewrite length_app in Hj. cbn in Hj.
        destruct (Nat.eq_dec j (length pre)) as [-> | Hne].
        -- rewrite Hnew. apply Qle_refl.
        -- rewrite Hold by lia. apply Qlt_le_weak.
           apply Qle_lt_trans with bestp; [apply Hmax; lia | exact Hlt].
      * intros j Hj. rewrite Hold by exact Hj.
        apply Qle_lt_trans with bestp; [apply Hmax; exact Hj | exact Hlt].
Qed.

Lemma argmax_spec (ps : list Q) :
  ps <> [] ->
  (argmax ps < length ps)%nat
  /\ (forall j, (j < length ps)%nat -> (nth j ps 0 <= nth (argmax ps) ps 0)%Q)
  /\ (forall j, (j < argmax ps)%nat -> (nth j ps 0 < nth (argmax ps) ps 0)%Q).
Proof.
  destruct ps as [| p rest]; [contradiction |]. intros _.
  apply (argmax_from_spec rest [p] 0%nat p).
  - cbn. lia.
  - reflexivity.
  - intros j Hj. cbn in Hj. replace j with 0%nat by lia. apply Qle_refl.
  - intros j Hj. lia.
Qed.

(** C6: on an amplitude vector of length [2^n], [sample_most_likely]
    returns the [bitfield] decoding (the bit order of [brute_force]) of an
    index [k] whose probability is maximal over the whole vector and
    strictly above the probability of every smaller index (ties go to the
    smallest index); equal inputs give equal outputs. *)
Theorem sample_most_likely_spec (n : nat) (amplitudes : list amplitude) :
  length amplitudes = (2 ^ n)%nat ->
  (exists k,
      (k < 2 ^ n)%nat
      /\ sample_most_likely n amplitudes = inr (bitfield (Z.of_nat k) n)
      /\ (forall j, (j < 2 ^ n)%nat ->
            (nth j (probabilities amplitudes) 0
             <= nth k (probabilities amplitudes) 0)%Q)
      /\ (forall j, (j < k)%nat ->
            (nth j (probabilities amplitudes) 0
             < nth k (probabilities amplitudes) 0)%Q))
  /\ (forall amplitudes', amplitudes' = amplitudes ->
        sample_most_likely n amplitudes' = sample_most_likely n amplitudes).
Proof.
  intros Hlen. split; [| intros ? ->; reflexivity].
  assert (length (probabilities amplitudes) = (2 ^ n)%nat) as Hplen
    by (unfold probabilities; rewrite length_map; exact Hlen).
  assert (probabilities amplitudes <> []) as Hne.
  { intros Hnil. rewrite Hnil in Hplen. cbn in Hplen.
    pose proof (Nat.pow_nonzero 2 n). lia. }
  destruct (argmax_spec _ Hne) as [Hk [Hmax Hfirst]].
  rewrite Hplen in Hk, Hmax.
  exists (argmax (probabilities amplitudes)).
  split; [exact Hk |]. split; [| split; assumption].
  unfold sample_most_likely. rewrite Hlen, Nat.eqb_refl. reflexivity.
Qed.

Lemma sample_most_likely_spec_witness :
  (exists k,
      (k < 2 ^ 2)%nat
      /\ sample_most_likely 2 [(1#2, 0); (0, 1#2); (1#3, 0); (0, 0)]%Q
         = inr (bitfield (Z.of_nat k) 2)
      /\ (forall j, (j < 2 ^ 2)%nat ->
            (nth j (probabilities [(1#2, 0); (0, 1#2); (1#3, 0); (0, 0)]%Q) 0
             <= nth k (probabilities [(1#2, 0); (0, 1#2); (1#3, 0); (0, 0)]%Q) 0)%Q)
      /\ (forall j, (j < k)%nat ->
            (nth j (probabilities [(1#2, 0); (0, 1#2); (1#3, 0); (0, 0)]%Q) 0
             < nth k (probabilities [(1#2, 0); (0, 1#2); (1#3, 0); (0, 0)]%Q) 0)%Q))
  /\ (forall amplitudes',
        amplitudes' = [(1#2, 0); (0, 1#2); (1#3, 0); (0, 0)]%Q ->
        sample_most_likely 2 amplitudes'
        = sample_most_likely 2 [(1#2, 0); (0, 1#2); (1#3, 0); (0, 0)]%Q).
Proof.
  apply (sample_most_likely_spec 2 [(1#2, 0); (0, 1#2); (1#3, 0); (0, 0)]%Q).
  reflexivity.
Defined.

(** C7: decoding undoes the encoding [s_i = 2 x_i - 1]: on the spin
    encoding of any membership vector, in particular of every feasible
    size-[K] clique, [get_graph_solution] returns the vector itself. *)
Theorem get_graph_solution_inverts_encoding (x : assignment) :
  Forall is_bit x ->
  get_graph_solution (solver_values (spin_of x)) = x.
Proof.
  unfold get_graph_solution, solver_values, spin_of.
  induction 1 as [| b x [-> | ->] _ IH]; cbn [map].
  - reflexivity.
  - rewrite IH. reflexivity.
  - rewrite IH. reflexivity.
Qed.

Lemma get_graph_solution_inverts_encoding_witness :
  satisfy_or_not [1; 0; 0; 1; 1] demo_graph 3 = true
  /\ get_graph_solution (solver_values (spin_of [1; 0; 0; 1; 1]))
     = [1; 0; 0; 1; 1].
Proof.
  split; [vm_compute; reflexivity |].
  apply (get_graph_solution_inverts_encoding [1; 0; 0; 1; 1]).
  repeat constructor; (left; reflexivity) || (right; reflexivity).
Defined.

(** * Further properties of the notebook's code *)

(** ** [bitfield] read back as a number *)

Lemma int_of_bits_acc (x : assignment) :
  forall a,
    fold_left (fun acc b => 2 * acc + b) x a
    = a * 2 ^ Z.of_nat (length x) + int_of_bits x.
Proof.
  unfold int_of_bits. induction x as [| b x IH]; intros a.
  - cbn. lia.
  - cbn [fold_left length]. rewrite IH, (IH (2 * 0 + b)).
    rewrite Nat2Z.inj_succ, Z.pow_succ_r by lia. lia.
Qed.

Lemma int_of_bits_cons (b : Z) (x : assignment) :
  int_of_bits (b :: x) = b * 2 ^ Z.of_nat (length x) + int_of_bits x.
Proof.
  unfold int_of_bits at 1. cbn [fold_left]. rewrite int_of_bits_acc. lia.
Qed.

Lemma int_of_bits_app (x y : assignment) :
  int_of_bits (x ++ y)
  = int_of_bits x * 2 ^ Z.of_nat (length y) + int_of_bits y.
Proof.
  unfold int_of_bits at 1. rewrite fold_left_app.
  fold (int_of_bits x). apply int_of_bits_acc.
Qed.

Lemma int_of_bits_zeros (k : nat) : int_of_bits (repeat 0 k) = 0.
Proof.
  induction k as [| k IH]; [reflexivity |].
  cbn [repeat]. rewrite int_of_bits_cons, IH. lia.
Qed.

Lemma int_of_bits_range (x : assignment) :
  Forall is_bit x -> 0 <= int_of_bits x < 2 ^ Z.of_nat (length x).
Proof.
  induction 1 as [| b x Hb _ IH].
  - cbn. lia.
  - rewrite int_of_bits_cons. cbn [length].
    rewrite Nat2Z.inj_succ, Z.pow_succ_r by lia.
    destruct Hb as [-> | ->]; lia.
Qed.

Lemma int_of_pos_bits (p : positive) :
  int_of_bits (rev (map Z.b2z (pos_bits p))) = Zpos p.
Proof.
  induction p as [q IH | q IH |]; cbn [pos_bits map rev].
  - rewrite int_of_bits_app, IH. cbn. lia.
  - rewrite int_of_bits_app, IH. cbn. lia.
  - reflexivity.
Qed.

(** [bitfield] of a positive number at any width: zeros up to the width,
    then all the binary digits. *)
Lemma bitfield_pos_any (p : positive) (L : nat) :
  bitfield (Zpos p) L
  = repeat 0 (L - length (pos_bits p)) ++ rev (map Z.b2z (pos_bits p)).
Proof.
  unfold bitfield, Np.binary_repr, Py.zfill. cbv zeta.
  rewrite bin_digits_length, map_app, map_repeat, int_of_bin_digits.
  f_equal. f_equal. lia.
Qed.


Lemma int_of_bitfield (n : Z) (L : nat) :
  0 <= n -> int_of_bits (bitfield n L) = n.
Proof.
  intros Hn. destruct n as [| p | p]; [| | lia].
  - unfold bitfield, Np.binary_repr. rewrite map_repeat.
    apply int_of_bits_zeros.
  - rewrite bitfield_pos_any, int_of_bits_app, int_of_bits_zeros.
    rewrite int_of_pos_bits. lia.
Qed.



(** X2: at one width, two different non-negative numbers never decode to
    the same vector. *)
Theorem bitfield_injective (n m : Z) (L : nat) :
  0 <= n -> 0 <= m -> bitfield n L = bitfield m L -> n = m.
Proof.
  intros Hn Hm Heq.
  rewrite <- (int_of_bitfield n L Hn), <- (int_of_bitfield m L Hm), Heq.
  reflexivity.
Qed.

Lemma bitfield_injective_witness : 2 ^ 4 + 3 = 19.
Proof.
  apply (bitfield_injective (2 ^ 4 + 3) 19 5); [lia | lia | reflexivity].
Defined.



Lemma testbit_above (n : Z) (L : nat) :
  0 <= n < 2 ^ Z.of_nat L -> Z.testbit n (Z.of_nat L) = false.
Proof.
  intros [Hlo Hhi]. destruct (Z.eq_dec n 0) as [-> | Hne].
  - apply Z.testbit_0_l.
  - apply Z.bits_above_log2; [exact Hlo |].
    apply Z.log2_lt_pow2; lia.
Qed.

Lemma testbit_top (n : Z) (L : nat) :
  0 <= n < 2 ^ Z.of_nat L ->
  Z.testbit (2 ^ Z.of_nat L + n) (Z.of_nat L) = true.
Proof.
  intros Hn. apply Z.testbit_true; [lia |].
  replace ((2 ^ Z.of_nat L + n) / 2 ^ Z.of_nat L) with 1; [reflexivity |].
  apply (Z.div_unique_pos _ _ 1 n); lia.
Qed.

Lemma testbit_below_top (n : Z) (L : nat) (j : Z) :
  0 <= n < 2 ^ Z.of_nat L -> 0 <= j < Z.of_nat L ->
  Z.testbit (2 ^ Z.of_nat L + n) j = Z.testbit n j.
Proof.
  intros Hn Hj.
  rewrite <- (Z.mod_pow2_bits_low (2 ^ Z.of_nat L + n) (Z.of_nat L) j) by lia.
  f_equal. symmetry. apply (Z.mod_unique_pos _ _ 1 n); lia.
Qed.

Lemma bitfield_cons_zero (n : Z) (L : nat) :
  (1 <= L)%nat -> 0 <= n < 2 ^ Z.of_nat L ->
  bitfield n (S L) = 0 :: bitfield n L.
Proof.
  intros HL Hn.
  assert (0 <= n < 2 ^ Z.of_nat (S L)) as Hn'
    by (rewrite Nat2Z.inj_succ, Z.pow_succ_r; lia).
  apply (nth_ext _ _ 0 0).
  - cbn [length]. rewrite !bitfield_length by (assumption || lia). reflexivity.
  - intros k Hk. rewrite bitfield_length in Hk by (assumption || lia).
    rewrite bitfield_nth by (assumption || lia).
    destruct k as [| k]; cbn [nth].
    + replace (S L - 1 - 0)%nat with L by lia.
      rewrite testbit_above by exact Hn. reflexivity.
    + rewrite bitfield_nth by (assumption || lia).
      replace (S L - 1 - S k)%nat with (L - 1 - k)%nat by lia. reflexivity.
Qed.

Lemma bitfield_cons_one (n : Z) (L : nat) :
  (1 <= L)%nat -> 0 <= n < 2 ^ Z.of_nat L ->
  bitfield (2 ^ Z.of_nat L + n) (S L) = 1 :: bitfield n L.
Proof.
  intros HL Hn.
  assert (0 <= 2 ^ Z.of_nat L + n < 2 ^ Z.of_nat (S L)) as Hn'
    by (rewrite Nat2Z.inj_succ, Z.pow_succ_r; lia).
  apply (nth_ext _ _ 0 0).
  - cbn [length]. rewrite !bitfield_length by (assumption || lia). reflexivity.
  - intros k Hk. rewrite bitfield_length in Hk by (assumption || lia).
    rewrite bitfield_nth by (assumption || lia).
    destruct k as [| k]; cbn [nth].
    + replace (S L - 1 - 0)%nat with L by lia.
      rewrite testbit_top by exact Hn. reflexivity.
    + rewrite bitfield_nth by (assumption || lia).
      replace (S L - 1 - S k)%nat with (L - 1 - k)%nat by lia.
      rewrite testbit_below_top by lia. reflexivity.
Qed.

(** X4: one more node splits the enumeration in two halves: for [L >= 1]
    and [0 <= n < 2^L], at width [L + 1] the index [n] decodes to [0]
    followed by [bitfield(n, L)] and the index [2^L + n] to [1] followed by
    [bitfield(n, L)]; node 0 is left out in the first half of the indices
    and selected in the second. *)
Theorem bitfield_cons (n : Z) (L : nat) :
  (1 <= L)%nat -> 0 <= n < 2 ^ Z.of_nat L ->
  bitfield n (S L) = 0 :: bitfield n L
  /\ bitfield (2 ^ Z.of_nat L + n) (S L) = 1 :: bitfield n L.
Proof.
  intros HL Hn. split.
  - apply bitfield_cons_zero; assumption.
  - apply bitfield_cons_one; assumption.
Qed.

Lemma bitfield_cons_witness :
  bitfield 3 (S 4) = 0 :: bitfield 3 4
  /\ bitfield (2 ^ Z.of_nat 4 + 3) (S 4) = 1 :: bitfield 3 4.
Proof.
  apply (bitfield_cons 3 4); [lia | cbn; lia].
Defined.

Lemma bitfield_of_bits (x : assignment) :
  Forall is_bit x -> (1 <= length x)%nat ->
  bitfield (int_of_bits x) (length x) = x.
Proof.
  induction 1 as [| b x Hb Hx IH]; cbn [length]; [lia |]. intros _.
  destruct x as [| c x].
  - destruct Hb as [-> | ->]; reflexivity.
  - assert (1 <= length (c :: x))%nat as Hlen by (cbn; lia).
    specialize (IH Hlen).
    pose proof (int_of_bits_range (c :: x) Hx) as Hrange.
    rewrite int_of_bits_cons. destruct Hb as [-> | ->].
    + rewrite Z.mul_0_l, Z.add_0_l.
      rewrite bitfield_cons_zero by assumption. rewrite IH. reflexivity.
    + rewrite Z.mul_1_l.
      rewrite bitfield_cons_one by assumption. rewrite IH. reflexivity.
Qed.

(** X5: every non-empty vector of [0]/[1] entries is the decoding of
    exactly the number it spells: that number lies in [0, 2^len), and
    [bitfield] of it at the vector's length gives the vector back. *)
Theorem bitfield_surjective (x : assignment) :
  Forall is_bit x -> (1 <= length x)%nat ->
  0 <= int_of_bits x < 2 ^ Z.of_nat (length x)
  /\ bitfield (int_of_bits x) (length x) = x.
Proof.
  intros Hx Hlen. split.
  - apply int_of_bits_range. exact Hx.
  - apply bitfield_of_bits; assumption.
Qed.

Lemma bitfield_surjective_witness :
  0 <= int_of_bits [1; 0; 1; 1; 0] < 2 ^ Z.of_nat (length [1; 0; 1; 1; 0])
  /\ bitfield (int_of_bits [1; 0; 1; 1; 0]) (length [1; 0; 1; 1; 0])
     = [1; 0; 1; 1; 0].
Proof.
  apply (bitfield_surjective [1; 0; 1; 1; 0]).
  - repeat constructor; (left; reflexivity) || (right; reflexivity).
  - cbn. lia.
Defined.

(** ** [brute_force] as an exhaustive search *)

(** The two ways the search ends, for any number of nodes. *)
Lemma brute_force_outcome (verifier : assignment -> graph -> Z -> bool)
      (N : nat) (w : graph) (K : Z) :
  (exists i, (i < 2 ^ N)%nat
             /\ verifier (bitfield (Z.of_nat i) N) w K = true
             /\ (forall j, (j < i)%nat ->
                   verifier (bitfield (Z.of_nat j) N) w K = false)
             /\ brute_force verifier N w K
                = Some (true, bitfield (Z.of_nat i) N))
  \/ ((forall i, (i < 2 ^ N)%nat ->
         verifier (bitfield (Z.of_nat i) N) w K = false)
      /\ brute_force verifier N w K
         = Some (false, bitfield (Z.of_nat (2 ^ N - 1)) N)).
Proof.
  destruct (least_hit (fun i => verifier (bitfield (Z.of_nat i) N) w K)
                      (2 ^ N)) as [[i [Hi [Hacc Hmin]]] | Hnone].
  - left. exists i. repeat split; try assumption.
    apply brute_force_found; assumption.
  - right. split; [exact Hnone |].
    rewrite brute_force_exhausted by exact Hnone.
    assert (0 < 2 ^ N)%nat by (apply Nat.neq_0_lt_0, Nat.pow_nonzero; lia).
    rewrite Nat2Z.inj_sub, pow2_nat_Z by lia. reflexivity.
Qed.

(** X6: [brute_force] always returns a pair, never leaving [cur] unbound:
    for every number of nodes the assignment returned is the decoding of
    some index [0 <= i < 2^N], and the flag returned is the verifier's
    answer on that very assignment. *)
Theorem brute_force_returns_verdict
        (verifier : assignment -> graph -> Z -> bool)
        (N : nat) (w : graph) (K : Z) :
  exists i, 0 <= i < 2 ^ Z.of_nat N
            /\ brute_force verifier N w K
               = Some (verifier (bitfield i N) w K, bitfield i N).
Proof.
  assert (0 < 2 ^ N)%nat as Hpos by (apply Nat.neq_0_lt_0, Nat.pow_nonzero; lia).
  rewrite <- pow2_nat_Z.
  destruct (brute_force_outcome verifier N w K)
    as [[i [Hi [Hacc [_ Hret]]]] | [Hnone Hret]].
  - exists (Z.of_nat i). split; [lia |]. rewrite Hacc. exact Hret.
  - exists (Z.of_nat (2 ^ N - 1)). split; [lia |].
    rewrite Hnone by lia. exact Hret.
Qed.

Lemma brute_force_candidate (verifier : assignment -> graph -> Z -> bool)
      (N : nat) (w : graph) (K : Z) (flag : bool) (x : assignment) :
  brute_force verifier N w K = Some (flag, x) ->
  exists i, 0 <= i < 2 ^ Z.of_nat N /\ x = bitfield i N
            /\ flag = verifier x w K.
Proof.
  intros Hret.
  assert (0 < 2 ^ N)%nat as Hpos by (apply Nat.neq_0_lt_0, Nat.pow_nonzero; lia).
  rewrite <- pow2_nat_Z.
  destruct (brute_force_outcome verifier N w K)
    as [[i [Hi [Hacc [_ Hret']]]] | [Hnone Hret']];
    rewrite Hret' in Hret; inversion Hret; subst flag x.
  - exists (Z.of_nat i). repeat split; [lia | lia | congruence].
  - exists (Z.of_nat (2 ^ N - 1)). repeat split; [lia | lia |].
    symmetry. apply Hnone. lia.
Qed.

(** X7: on a graph with at least one node, whatever [brute_force] returns,
    with success or without, is a vector of exactly [N] entries, each [0]
    or [1]. *)
Theorem brute_force_result_shape
        (verifier : assignment -> graph -> Z -> bool)
        (N : nat) (w : graph) (K : Z) (flag : bool) (x : assignment) :
  (1 <= N)%nat ->
  brute_force verifier N w K = Some (flag, x) ->
  length x = N /\ Forall is_bit x.
Proof.
  intros HN Hret.
  destruct (brute_force_candidate _ _ _ _ _ _ Hret) as [i [Hi [-> _]]].
  split; [apply bitfield_length | apply bitfield_bits]; assumption.
Qed.

Lemma brute_force_result_shape_witness :
  length [1; 0; 0; 1; 1] = 5%nat /\ Forall is_bit [1; 0; 0; 1; 1].
Proof.
  apply (brute_force_result_shape satisfy_or_not 5 demo_graph 3 true
                                  [1; 0; 0; 1; 1]).
  - lia.
  - vm_compute. reflexivity.
Defined.

(** X8: the search is exhaustive: on a graph with at least one node,
    [brute_force] reports success exactly when the verifier accepts some
    vector of [N] entries in [{0,1}]. *)
Theorem brute_force_complete
        (verifier : assignment -> graph -> Z -> bool)
        (N : nat) (w : graph) (K : Z) :
  (1 <= N)%nat ->
  (exists x, length x = N /\ Forall is_bit x /\ verifier x w K = true)
  <-> (exists y, brute_force verifier N w K = Some (true, y)).
Proof.
  intros HN. split.
  - intros [x [Hlen [Hx Hacc]]].
    subst N.
    destruct (brute_force_outcome verifier (length x) w K)
      as [[i [_ [_ [_ Hret]]]] | [Hnone _]].
    + eexists. exact Hret.
    + exfalso.
      pose proof (int_of_bits_range x Hx) as Hrange.
      specialize (Hnone (Z.to_nat (int_of_bits x))).
      rewrite Z2Nat.id in Hnone by lia.
      rewrite bitfield_of_bits in Hnone by assumption.
      rewrite Hnone in Hacc; [discriminate |].
      apply Nat2Z.inj_lt. rewrite pow2_nat_Z, Z2Nat.id by lia. lia.
  - intros [y Hret].
    destruct (brute_force_candidate _ _ _ _ _ _ Hret) as [i [Hi [Hy Hflag]]].
    exists y. split; [| split].
    + rewrite Hy. apply bitfield_length; assumption.
    + rewrite Hy. apply bitfield_bits; assumption.
    + symmetry. exact Hflag.
Qed.

Lemma brute_force_complete_witness :
  (exists x, length x = 5%nat /\ Forall is_bit x
             /\ satisfy_or_not x demo_graph 3 = true)
  <-> (exists y, brute_force satisfy_or_not 5 demo_graph 3 = Some (true, y)).
Proof.
  apply (brute_force_complete satisfy_or_not 5 demo_graph 3). lia.
Defined.

(** X9: among the accepted vectors the one returned spells the smallest
    number (node 0 as the most significant bit): if [brute_force] returns
    [(True, y)] on [N >= 1] nodes, every accepted [0]/[1] vector [x] of
    length [N] has [int_of_bits y <= int_of_bits x]. *)
Theorem brute_force_least
        (verifier : assignment -> graph -> Z -> bool)
        (N : nat) (w : graph) (K : Z) (y x : assignment) :
  (1 <= N)%nat ->
  brute_force verifier N w K = Some (true, y) ->
  length x = N -> Forall is_bit x -> verifier x w K = true ->
  int_of_bits y <= int_of_bits x.
Proof.
  intros HN Hret Hlen Hx Hacc. subst N.
  pose proof (int_of_bits_range x Hx) as Hrange.
  destruct (brute_force_outcome verifier (length x) w K)
    as [[i [_ [_ [Hmin Hret']]]] | [_ Hret']];
    rewrite Hret' in Hret; [| discriminate].
  inversion Hret; subst y. rewrite int_of_bitfield by lia.
  destruct (Z.le_gt_cases (Z.of_nat i) (int_of_bits x)) as [Hle | Hgt];
    [exact Hle | exfalso].
  specialize (Hmin (Z.to_nat (int_of_bits x))).
  rewrite Z2Nat.id in Hmin by lia.
  rewrite bitfield_of_bits in Hmin by assumption.
  rewrite Hmin in Hacc; [discriminate | lia].
Qed.

Lemma brute_force_least_witness :
  int_of_bits [1; 0; 0; 1; 1] <= int_of_bits [1; 0; 1; 1; 0].
Proof.
  apply (brute_force_least satisfy_or_not 5 demo_graph 3
                           [1; 0; 0; 1; 1] [1; 0; 1; 1; 0]).
  - lia.
  - vm_compute. reflexivity.
  - reflexivity.
  - repeat constructor; (left; reflexivity) || (right; reflexivity).
  - vm_compute. reflexivity.
Defined.

Lemma brute_force_loop_agree (v1 v2 : assignment -> graph -> Z -> bool)
      (w : graph) (K : Z) (L : nat) (idxs : list Z) :
  (forall i, In i idxs -> v1 (bitfield i L) w K = v2 (bitfield i L) w K) ->
  forall st,
    brute_force_loop v1 w K L idxs st = brute_force_loop v2 w K L idxs st.
Proof.
  induction idxs as [| i idxs IH]; intros Hagree st; cbn [brute_force_loop].
  - reflexivity.
  - cbv zeta. rewrite (Hagree i) by (left; reflexivity).
    destruct (v2 (bitfield i L) w K); [reflexivity |].
    apply IH. intros j Hj. apply Hagree. right. exact Hj.
Qed.

(** X10: [brute_force] consults the verifier on nothing but [0]/[1]
    vectors of length [N]: on [N >= 1] nodes, two verifiers that agree on
    all such vectors yield the same result. *)
Theorem brute_force_agree (v1 v2 : assignment -> graph -> Z -> bool)
        (N : nat) (w : graph) (K : Z) :
  (1 <= N)%nat ->
  (forall x, length x = N -> Forall is_bit x -> v1 x w K = v2 x w K) ->
  brute_force v1 N w K = brute_force v2 N w K.
Proof.
  intros HN Hagree. unfold brute_force. cbv zeta.
  rewrite (brute_force_loop_agree v1 v2 w K N); [reflexivity |].
  intros i Hi. apply range_In in Hi. rewrite pow2_nat_Z in Hi.
  apply Hagree; [apply bitfield_length | apply bitfield_bits]; assumption.
Qed.

Lemma brute_force_agree_witness :
  brute_force satisfy_or_not 5 demo_graph 3
  = brute_force (fun x w K => satisfy_or_not x w K && (length x =? 5)%nat)
                5 demo_graph 3.
Proof.
  apply (brute_force_agree
           satisfy_or_not
           (fun x w K => satisfy_or_not x w K && (length x =? 5)%nat)
           5 demo_graph 3).
  - lia.
  - intros x Hlen _. rewrite Hlen. cbn [Nat.eqb]. rewrite andb_true_r.
    reflexivity.
Defined.

(** X11: with no nodes at all the loop still runs once, on the one-entry
    vector [[0]] that [bitfield(0, 0)] yields: [brute_force] returns that
    vector together with the verifier's answer on it. *)
Theorem brute_force_no_nodes
        (verifier : assignment -> graph -> Z -> bool) (w : graph) (K : Z) :
  brute_force verifier 0 w K = Some (verifier [0] w K, [0]).
Proof.
  unfold brute_force. cbv zeta.
  change (Py.range (2 ^ 0)) with [0]. cbn [brute_force_loop].
  change (bitfield 0 0) with [0].
  destruct (verifier [0] w K); reflexivity.
Qed.
